(** * CoffeeClock: the Raspberry Pi brew controller (pi_coffee.py)

    A shallow embedding of the controller script.  The script is a sequence
    of start-up statements followed by an endless [while True] loop that
    polls a web service, drives one relay pin and keeps a 16x2 character
    display up to date.  The module-level variables of the script, the relay
    pin and a log of every call made to a collaborator (display, GPIO, HTTP,
    sleep) form the [world]; statements are computations in a small
    state-and-exception monad over it. *)

From Stdlib Require Import String Ascii List Bool Arith Lia.
Import ListNotations.
Open Scope string_scope.

(** ** Collaborators *)

(** GPIO.LOW / GPIO.HIGH. *)
Inductive level : Type := LOW | HIGH.

(** What the httplib calls can raise. *)
Inductive exn : Type :=
| socket_timeout
| socket_error
| socket_gaierror
| HTTPException.

(** One entry per call into a collaborator, in program order. *)
Inductive event : Type :=
| ev_lcd_begin (cols rows : nat)
| ev_lcd_setCursor (col row : nat)
| ev_lcd_message (text : string)
| ev_lcd_clear
| ev_gpio_setmode_BCM
| ev_gpio_setup_OUT (pin : nat)
| ev_gpio_setwarnings (flag : bool)
| ev_gpio_output (pin : nat) (l : level)
| ev_http_connection (host : string)
| ev_http_request (method path : string)
| ev_http_close
| ev_sleep (seconds : nat).

(** ** time.strftime

    The broken-down local time, restricted to the fields the two format
    strings of the script read. [tm_wday] counts from Monday = 0 and [tm_mon]
    from January = 1, as in Python's [struct_time]. *)
Record struct_time : Type := {
  tm_mon : nat;
  tm_mday : nat;
  tm_hour : nat;
  tm_min : nat;
  tm_wday : nat
}.

Definition digit (n : nat) : ascii := ascii_of_nat (48 + n mod 10).

Definition two_digits (n : nat) : string :=
  String (digit (n / 10)) (String (digit n) "").

Definition abbr_day (w : nat) : string :=
  nth w ["Mon"; "Tue"; "Wed"; "Thu"; "Fri"; "Sat"; "Sun"] "???".

Definition abbr_month (m : nat) : string :=
  nth (m - 1)
      ["Jan"; "Feb"; "Mar"; "Apr"; "May"; "Jun";
       "Jul"; "Aug"; "Sep"; "Oct"; "Nov"; "Dec"] "???".

Definition directive (c : ascii) (t : struct_time) : string :=
  if Ascii.eqb c "a" then abbr_day (tm_wday t)
  else if Ascii.eqb c "b" then abbr_month (tm_mon t)
  else if Ascii.eqb c "d" then two_digits (tm_mday t)
  else if Ascii.eqb c "H" then two_digits (tm_hour t)
  else if Ascii.eqb c "M" then two_digits (tm_min t)
  else String "%" (String c "").

(** [strftime fmt] applied to one reading of the clock (C locale). *)
Fixpoint strftime (fmt : string) (t : struct_time) : string :=
  match fmt with
  | "" => ""
  | String c rest =>
      if Ascii.eqb c "%" then
        match rest with
        | String d rest' => directive d t ++ strftime rest' t
        | "" => String c ""
        end
      else String c (strftime rest t)
  end.

(** ** The world: module-level variables, relay pin, call log *)

Record world : Type := mkWorld {
  brewing : bool;
  lcdTime : string;
  brewString : string;
  oldMin : string;
  oldSec : string;
  relay : level;          (* level brewPin is driven at *)
  log : list event        (* calls made so far, oldest first *)
}.

Definition set_brewing (b : bool) (w : world) : world :=
  mkWorld b (lcdTime w) (brewString w) (oldMin w) (oldSec w) (relay w) (log w).
Definition set_lcdTime (s : string) (w : world) : world :=
  mkWorld (brewing w) s (brewString w) (oldMin w) (oldSec w) (relay w) (log w).
Definition set_brewString (s : string) (w : world) : world :=
  mkWorld (brewing w) (lcdTime w) s (oldMin w) (oldSec w) (relay w) (log w).
Definition set_oldMin (s : string) (w : world) : world :=
  mkWorld (brewing w) (lcdTime w) (brewString w) s (oldSec w) (relay w) (log w).
Definition set_oldSec (s : string) (w : world) : world :=
  mkWorld (brewing w) (lcdTime w) (brewString w) (oldMin w) s (relay w) (log w).
Definition set_relay (l : level) (w : world) : world :=
  mkWorld (brewing w) (lcdTime w) (brewString w) (oldMin w) (oldSec w) l (log w).
Definition set_log (evs : list event) (w : world) : world :=
  mkWorld (brewing w) (lcdTime w) (brewString w) (oldMin w) (oldSec w)
          (relay w) evs.

(** ** Computations: state plus uncaught exceptions

    The script has no [try]: an exception raised by a collaborator unwinds
    to the top level and ends the process.  [Raised] keeps the world as it
    was when the exception left the failing call. *)

Inductive outcome (A : Type) : Type :=
| Returned (a : A) (w : world)
| Raised (e : exn) (w : world).
Arguments Returned {A} a w.
Arguments Raised {A} e w.

Definition M (A : Type) : Type := world -> outcome A.

Definition ret {A : Type} (a : A) : M A := fun w => Returned a w.

Definition bind {A B : Type} (m : M A) (k : A -> M B) : M B :=
  fun w =>
    match m w with
    | Returned a w' => k a w'
    | Raised e w' => Raised e w'
    end.

Definition raise {A : Type} (e : exn) : M A := fun w => Raised e w.

Declare Scope py_scope.
Delimit Scope py_scope with py.
Notation "x <- m ;; k" := (bind m (fun x => k))
  (at level 61, m at next level, right associativity) : py_scope.
Notation "m ;; k" := (bind m (fun _ => k))
  (at level 61, right associativity) : py_scope.
Open Scope py_scope.

Definition world_of {A : Type} (o : outcome A) : world :=
  match o with
  | Returned _ w => w
  | Raised _ w => w
  end.

Definition returned {A : Type} (o : outcome A) : bool :=
  match o with
  | Returned _ _ => true
  | Raised _ _ => false
  end.

Definition read {A : Type} (f : world -> A) : M A := fun w => Returned (f w) w.
Definition assign (f : world -> world) : M unit := fun w => Returned tt (f w).
Definition call (e : event) : M unit :=
  assign (fun w => set_log (log w ++ [e]) w).

(** ** Constants of the script *)

Definition brewPin : nat := 14.
Definition host : string := "ruby-coffee-maker.herokuapp.com".

(** "Karen 1.1 " followed by the UTF-8 bytes of U+2665. *)
Definition splash : string :=
  "Karen 1.1 " ++
  String (ascii_of_nat 226) (String (ascii_of_nat 153)
    (String (ascii_of_nat 165) "")).

(** The line feed that [update_LCD] puts between the two display lines. *)
Definition nl : string := String (ascii_of_nat 10) "".

(** ** Collaborator calls *)

Definition lcd_begin (cols rows : nat) : M unit := call (ev_lcd_begin cols rows).
Definition lcd_setCursor (col row : nat) : M unit :=
  call (ev_lcd_setCursor col row).
Definition lcd_message (text : string) : M unit := call (ev_lcd_message text).
Definition lcd_clear : M unit := call ev_lcd_clear.

Definition GPIO_setmode_BCM : M unit := call ev_gpio_setmode_BCM.
Definition GPIO_setup_OUT (pin : nat) : M unit := call (ev_gpio_setup_OUT pin).
Definition GPIO_setwarnings (flag : bool) : M unit :=
  call (ev_gpio_setwarnings flag).

(** GPIO.output(pin, l): the relay hangs on [brewPin]. *)
Definition GPIO_output (pin : nat) (l : level) : M unit :=
  call (ev_gpio_output pin l) ;;
  if Nat.eqb pin brewPin then assign (set_relay l) else ret tt.

Definition sleep (seconds : nat) : M unit := call (ev_sleep seconds).

(** What the web service does with the one request of a cycle: the request
    itself fails (no route, refused, name lookup), the response fails
    (timeout, bad status line, short read), or a body arrives. *)
Inductive net_reply : Type :=
| request_raises (e : exn)
| response_raises (e : exn)
| body (data : string).

Definition HTTPConnection (h : string) : M unit := call (ev_http_connection h).

Definition conn_request (method path : string) (r : net_reply) : M unit :=
  call (ev_http_request method path) ;;
  match r with
  | request_raises e => raise e
  | _ => ret tt
  end.

(** resp = conn.getresponse(); data = resp.read() *)
Definition conn_getresponse_read (r : net_reply) : M string :=
  match r with
  | request_raises e => raise e
  | response_raises e => raise e
  | body data => ret data
  end.

Definition conn_close : M unit := call ev_http_close.

(** ** Functions of the script *)

Definition update_LCD : M unit :=
  lcd_clear ;;
  t <- read lcdTime ;;
  s <- read brewString ;;
  lcd_message (t ++ nl ++ s).

(** A function body is its statements, run one after the other; an
    exception in one of them ends the body there. *)
Fixpoint block (stmts : list (M unit)) : M unit :=
  match stmts with
  | [] => ret tt
  | stmt :: rest => stmt ;; block rest
  end.

(** The world a body has reached once its first [n] statements have run. *)
Definition after_statements (n : nat) (stmts : list (M unit)) (w : world)
  : world :=
  world_of (block (firstn n stmts) w).

Definition start_brewing_body : list (M unit) :=
  [ GPIO_output brewPin HIGH;
    assign (set_brewing true);
    assign (set_brewString "Brewing");
    update_LCD ].

Definition start_brewing : M unit := block start_brewing_body.

Definition stop_brewing_body : list (M unit) :=
  [ GPIO_output brewPin LOW;
    assign (set_brewing false);
    assign (set_brewString "Not brewing");
    update_LCD ].

Definition stop_brewing : M unit := block stop_brewing_body.

(** ** Start-up: everything above [while True] *)

Definition startup : M unit :=
  lcd_begin 16 2 ;;
  assign (set_brewing false) ;;
  GPIO_setmode_BCM ;;
  GPIO_setup_OUT brewPin ;;
  GPIO_setwarnings false ;;
  GPIO_output brewPin LOW ;;
  lcd_setCursor 0 1 ;;
  lcd_message "Not brewing" ;;
  assign (set_lcdTime "") ;;
  assign (set_brewString "Not brewing") ;;
  assign (set_oldMin "") ;;
  assign (set_oldSec "") ;;
  lcd_message splash ;;
  sleep 1.

(** ** One pass through the body of [while True]

    The body asks the clock three times ([strftime] in the test, in the
    assignment to [lcdTime] and in the assignment to [oldMin]); each call
    gets its own reading. *)
Record cycle_input : Type := {
  reply : net_reply;
  now_test : struct_time;
  now_text : struct_time;
  now_reset : struct_time
}.

Definition cycle (i : cycle_input) : M unit :=
  HTTPConnection host ;;
  b <- read brewing ;;
  (if negb b then
     conn_request "GET" "/should_brew" (reply i) ;;
     data <- conn_getresponse_read (reply i) ;;
     if data =? "1" then start_brewing else ret tt
   else
     conn_request "GET" "/should_stop" (reply i) ;;
     data <- conn_getresponse_read (reply i) ;;
     if data =? "1" then stop_brewing else ret tt) ;;
  conn_close ;;
  m <- read oldMin ;;
  (if negb (strftime "%M" (now_test i) =? m) then
     assign (set_lcdTime (strftime "%a %b %d %H:%M" (now_text i))) ;;
     update_LCD ;;
     assign (set_oldMin (strftime "%M" (now_reset i)))
   else ret tt) ;;
  sleep 1.

(** The loop, run for as many passes as there are inputs; an exception in
    one pass ends it. *)
Fixpoint main_loop (inputs : list cycle_input) : M unit :=
  match inputs with
  | [] => ret tt
  | i :: rest => cycle i ;; main_loop rest
  end.

Definition program (inputs : list cycle_input) : M unit :=
  startup ;; main_loop inputs.

(** The machine as the script finds it: no variable bound yet (the fields
    hold placeholders that start-up overwrites), nothing logged, the relay
    at whatever level the hardware came up with. *)
Definition power_on (prior : level) : world :=
  mkWorld true "" "" "" "" prior [].

(** ** Observations on the call log *)

(** The calls a computation adds to the log when started in [w]. *)
Definition events_of {A : Type} (m : M A) (w : world) : list event :=
  skipn (length (log w)) (log (world_of (m w))).

(** Paths of the HTTP requests issued. *)
Fixpoint requests (evs : list event) : list string :=
  match evs with
  | [] => []
  | ev_http_request _ path :: rest => path :: requests rest
  | _ :: rest => requests rest
  end.

(** Levels the relay pin was driven to. *)
Fixpoint relay_drives (evs : list event) : list level :=
  match evs with
  | [] => []
  | ev_gpio_output pin l :: rest =>
      if Nat.eqb pin brewPin then l :: relay_drives rest else relay_drives rest
  | _ :: rest => relay_drives rest
  end.

(** Texts handed to lcd.message. *)
Fixpoint display_writes (evs : list event) : list string :=
  match evs with
  | [] => []
  | ev_lcd_message text :: rest => text :: display_writes rest
  | _ :: rest => display_writes rest
  end.

(** What the display holds: the texts written since it was last cleared. *)
Definition on_screen (evs : list event) : list string :=
  fold_left (fun shown e =>
               match e with
               | ev_lcd_clear => []
               | ev_lcd_message text => (shown ++ [text])%list
               | _ => shown
               end) evs [].

(** The level most recently commanded on the relay pin, if any. *)
Definition last_commanded (evs : list event) : option level :=
  last (map Some (relay_drives evs)) None.

(** The mapping of section 3 of the specification. *)
Definition level_of (b : bool) : level := if b then HIGH else LOW.
Definition status_text (b : bool) : string :=
  if b then "Brewing" else "Not brewing".
Definition endpoint_for (b : bool) : string :=
  if b then "/should_stop" else "/should_brew".

(** The world start-up hands to the loop. *)
Definition booted (prior : level) : world := world_of (startup (power_on prior)).

(** ** One pass in closed form

    What a pass does, read off the control flow of [cycle]: whether the poll
    toggles the brew state ([flips]), whether the minute test fires
    ([ticks]), the calls made and the world left behind.  The lemmas
    [cycle_returns] and [cycle_raises] below prove that the script computes
    exactly this. *)

Definition flips (i : cycle_input) : bool :=
  match reply i with
  | body data => data =? "1"
  | _ => false
  end.

Definition ticks (i : cycle_input) (w : world) : bool :=
  negb (strftime "%M" (now_test i) =? oldMin w).

Definition brewing_after (i : cycle_input) (w : world) : bool :=
  if flips i then negb (brewing w) else brewing w.

Definition brewString_after (i : cycle_input) (w : world) : string :=
  if flips i then status_text (negb (brewing w)) else brewString w.

Definition relay_after (i : cycle_input) (w : world) : level :=
  if flips i then level_of (negb (brewing w)) else relay w.

Definition lcdTime_after (i : cycle_input) (w : world) : string :=
  if ticks i w then strftime "%a %b %d %H:%M" (now_text i) else lcdTime w.

Definition oldMin_after (i : cycle_input) (w : world) : string :=
  if ticks i w then strftime "%M" (now_reset i) else oldMin w.

Definition poll_events (w : world) : list event :=
  [ev_http_connection host; ev_http_request "GET" (endpoint_for (brewing w))].

Definition transition_events (i : cycle_input) (w : world) : list event :=
  if flips i then
    [ev_gpio_output brewPin (level_of (negb (brewing w)));
     ev_lcd_clear;
     ev_lcd_message (lcdTime w ++ nl ++ status_text (negb (brewing w)))]
  else [].

Definition clock_events (i : cycle_input) (w : world) : list event :=
  if ticks i w then
    [ev_lcd_clear;
     ev_lcd_message (strftime "%a %b %d %H:%M" (now_text i) ++ nl
                     ++ brewString_after i w)]
  else [].

Definition cycle_events (i : cycle_input) (w : world) : list event :=
  match reply i with
  | body _ =>
      poll_events w ++ transition_events i w ++ [ev_http_close]
      ++ clock_events i w ++ [ev_sleep 1]
  | _ => poll_events w
  end%list.

Definition cycle_world (i : cycle_input) (w : world) : world :=
  match reply i with
  | body _ =>
      mkWorld (brewing_after i w) (lcdTime_after i w) (brewString_after i w)
              (oldMin_after i w) (oldSec w) (relay_after i w)
              (log w ++ cycle_events i w)
  | _ => set_log (log w ++ cycle_events i w) w
  end.

(** The display writes among [transition_events] and [clock_events]. *)
Definition transition_write (i : cycle_input) (w : world) : list string :=
  if flips i then [lcdTime w ++ nl ++ status_text (negb (brewing w))] else [].

Definition clock_write (i : cycle_input) (w : world) : list string :=
  if ticks i w then
    [strftime "%a %b %d %H:%M" (now_text i) ++ nl ++ brewString_after i w]
  else [].

(** ** Invariants *)

(** Brew state, relay level, status text and the last GPIO command agree. *)
Definition consistent (w : world) : Prop :=
  relay w = level_of (brewing w) /\
  brewString w = status_text (brewing w) /\
  last_commanded (log w) = Some (relay w).

(** No two neighbouring writes carry the same text. *)
Fixpoint stutter_free (l : list string) : Prop :=
  match l with
  | a :: (b :: _) as rest => a <> b /\ stutter_free rest
  | _ => True
  end.

(** The three clock readings of a pass fall in one minute. *)
Definition same_minute (i : cycle_input) : Prop :=
  strftime "%M" (now_text i) = strftime "%M" (now_test i) /\
  strftime "%M" (now_reset i) = strftime "%M" (now_test i).

(** [oldMin] is the minute of the clock text held in [lcdTime], or neither
    has been set yet. *)
Definition synced (w : world) : Prop :=
  (lcdTime w = "" /\ oldMin w = "") \/
  (exists t, lcdTime w = strftime "%a %b %d %H:%M" t /\
             oldMin w = strftime "%M" t).

(** The pair on the display is the pair in the variables (or the splash is
    still up), and no write so far repeated the one before it. *)
Definition debounced (w : world) : Prop :=
  brewString w = status_text (brewing w) /\
  synced w /\
  stutter_free (display_writes (log w)) /\
  exists ws m,
    display_writes (log w) = (ws ++ [m])%list /\
    (m = splash \/ m = lcdTime w ++ nl ++ brewString w).

(** ** Clock text *)

(** What [strftime "%a %b %d %H:%M"] prints ahead of the minute. *)
Definition before_minute (t : struct_time) : string :=
  abbr_day (tm_wday t) ++ " " ++ abbr_month (tm_mon t) ++ " "
  ++ two_digits (tm_mday t) ++ " " ++ two_digits (tm_hour t) ++ ":".

Fixpoint has_newline (s : string) : bool :=
  match s with
  | "" => false
  | String c rest => Ascii.eqb c (ascii_of_nat 10) || has_newline rest
  end.

(** ** Sample inputs *)

(** Monday 1 January, 10:04 and 10:05. *)
Definition monday_1004 : struct_time := Build_struct_time 1 1 10 4 0.
Definition monday_1005 : struct_time := Build_struct_time 1 1 10 5 0.

Definition timeout_pass : cycle_input :=
  Build_cycle_input (response_raises socket_timeout)
                    monday_1004 monday_1004 monday_1004.
Definition brew_pass : cycle_input :=
  Build_cycle_input (body "1") monday_1004 monday_1004 monday_1004.
Definition quiet_pass : cycle_input :=
  Build_cycle_input (body "0") monday_1004 monday_1004 monday_1004.

(** A pass that straddles a minute boundary: the test and the clock text
    read 10:04, the reading stored in [oldMin] already reads 10:05. *)
Definition split_pass : cycle_input :=
  Build_cycle_input (body "0") monday_1004 monday_1004 monday_1005.

(** ** Further observations on the call log *)

Definition is_connection (e : event) : bool :=
  match e with ev_http_connection _ => true | _ => false end.
Definition is_close (e : event) : bool :=
  match e with ev_http_close => true | _ => false end.
Definition is_sleep (e : event) : bool :=
  match e with ev_sleep _ => true | _ => false end.
Definition is_clear (e : event) : bool :=
  match e with ev_lcd_clear => true | _ => false end.

(** How many calls of one kind the log holds. *)
Definition count (p : event -> bool) (evs : list event) : nat :=
  length (filter p evs).

(** Every lcd.message comes right after an lcd.clear; [cleared] tells
    whether the call just before the list was a clear. *)
Fixpoint writes_follow_clear (cleared : bool) (evs : list event) : bool :=
  match evs with
  | [] => true
  | ev_lcd_message _ :: rest => cleared && writes_follow_clear false rest
  | ev_lcd_clear :: rest => writes_follow_clear true rest
  | _ :: rest => writes_follow_clear false rest
  end.

(** Pins named in GPIO.output calls. *)
Fixpoint gpio_pins (evs : list event) : list nat :=
  match evs with
  | [] => []
  | ev_gpio_output pin _ :: rest => pin :: gpio_pins rest
  | _ :: rest => gpio_pins rest
  end.

(** No element equals the one right after it. *)
Fixpoint neighbours_differ {A : Type} (l : list A) : Prop :=
  match l with
  | a :: (b :: _) as rest => a <> b /\ neighbours_differ rest
  | _ => True
  end.

(** The calls start-up makes, in order. *)
Definition startup_calls : list event :=
  [ev_lcd_begin 16 2; ev_gpio_setmode_BCM; ev_gpio_setup_OUT brewPin;
   ev_gpio_setwarnings false; ev_gpio_output brewPin LOW;
   ev_lcd_setCursor 0 1; ev_lcd_message "Not brewing";
   ev_lcd_message splash; ev_sleep 1].

(** The screen holds exactly the pair in the variables, and brew state,
    status text and relay agree. *)
Definition shows_variables (w : world) : Prop :=
  on_screen (log w) = [lcdTime w ++ nl ++ brewString w] /\ consistent w.

(** The relay has been driven, first LOW, never twice in a row to one level,
    and last to the level it has now. *)
Definition relay_alternates (w : world) : Prop :=
  relay w = level_of (brewing w) /\
  hd_error (relay_drives (log w)) = Some LOW /\
  neighbours_differ (relay_drives (log w)) /\
  exists ds, relay_drives (log w) = (ds ++ [relay w])%list.


(** A pass with a negative reply whose three readings are all 10:05. *)
Definition late_pass : cycle_input :=
  Build_cycle_input (body "0") monday_1005 monday_1005 monday_1005.

(** * Proofs *)

(** ** The call log *)

Lemma skipn_app_exact (A : Type) (l r : list A) :
  skipn (length l) (l ++ r) = r.
Proof. induction l as [|a l IH]; simpl; auto. Qed.

Lemma relay_drives_app (l r : list event) :
  relay_drives (l ++ r) = (relay_drives l ++ relay_drives r)%list.
Proof.
  induction l as [|e l IH]; simpl; auto.
  destruct e; simpl; auto.
  destruct (Nat.eqb pin brewPin); simpl; now rewrite IH.
Qed.

Lemma display_writes_app (l r : list event) :
  display_writes (l ++ r) = (display_writes l ++ display_writes r)%list.
Proof.
  induction l as [|e l IH]; simpl; auto.
  destruct e; simpl; auto. now rewrite IH.
Qed.

Arguments strftime : simpl never.
Arguments String.eqb : simpl never.
Arguments String.append : simpl never.

(** ** The script computes the closed form *)

Ltac eval_script :=
  cbv beta iota zeta delta
    [cycle start_brewing stop_brewing start_brewing_body stop_brewing_body
     block update_LCD conn_request
     conn_getresponse_read conn_close HTTPConnection GPIO_output lcd_clear
     lcd_message sleep call assign read raise bind ret
     set_brewing set_lcdTime set_brewString set_oldMin set_oldSec set_relay
     set_log brewing lcdTime brewString oldMin oldSec relay log reply
     now_test now_text now_reset negb Nat.eqb brewPin
     cycle_world cycle_events poll_events transition_events clock_events
     flips ticks brewing_after brewString_after relay_after lcdTime_after
     oldMin_after level_of status_text endpoint_for world_of].

Lemma cycle_returns (i : cycle_input) (w : world) (data : string) :
  reply i = body data ->
  cycle i w = Returned tt (cycle_world i w).
Proof.
  destruct w as [b lt bs om os r lg]; destruct i as [rp t1 t2 t3].
  simpl. intros ->.
  eval_script.
  destruct b; destruct (data =? "1");
    destruct (strftime "%M" t1 =? om);
    cbv beta iota; repeat rewrite <- app_assoc; reflexivity.
Qed.

Lemma cycle_raises (i : cycle_input) (w : world) (e : exn) :
  reply i = request_raises e \/ reply i = response_raises e ->
  cycle i w = Raised e (cycle_world i w).
Proof.
  destruct w as [b lt bs om os r lg]; destruct i as [rp t1 t2 t3].
  simpl. intros [-> | ->]; eval_script;
    destruct b; cbv beta iota; repeat rewrite <- app_assoc; reflexivity.
Qed.

(** Whatever the reply, the pass ends in [cycle_world] and adds exactly
    [cycle_events] to the log. *)
Lemma cycle_world_of (i : cycle_input) (w : world) :
  world_of (cycle i w) = cycle_world i w.
Proof.
  destruct (reply i) as [e|e|data] eqn:E.
  - rewrite (cycle_raises i w e); auto.
  - rewrite (cycle_raises i w e); auto.
  - rewrite (cycle_returns i w data); auto.
Qed.

Lemma cycle_log (i : cycle_input) (w : world) :
  log (cycle_world i w) = (log w ++ cycle_events i w)%list.
Proof. unfold cycle_world. destruct (reply i); reflexivity. Qed.

Lemma cycle_events_of (i : cycle_input) (w : world) :
  events_of (cycle i) w = cycle_events i w.
Proof.
  unfold events_of. rewrite cycle_world_of, cycle_log.
  apply skipn_app_exact.
Qed.

Lemma cycle_returned (i : cycle_input) (w : world) :
  returned (cycle i w) = match reply i with body _ => true | _ => false end.
Proof.
  destruct (reply i) as [e|e|data] eqn:E.
  - rewrite (cycle_raises i w e); auto.
  - rewrite (cycle_raises i w e); auto.
  - rewrite (cycle_returns i w data); auto.
Qed.

(** C3. Every pass of the loop issues exactly one HTTP request, to
    /should_stop when the controller is brewing and to /should_brew when it
    is not; this holds whether the request succeeds or raises. *)
Theorem one_request_per_cycle (w : world) (i : cycle_input) :
  requests (events_of (cycle i) w) = [endpoint_for (brewing w)].
Proof.
  rewrite cycle_events_of.
  unfold cycle_events, poll_events, transition_events, clock_events.
  destruct (reply i); simpl; auto.
  destruct (flips i); destruct (ticks i w); reflexivity.
Qed.

Lemma startup_log (w0 : world) :
  log (world_of (startup w0)) =
  (log w0 ++
   [ev_lcd_begin 16 2; ev_gpio_setmode_BCM; ev_gpio_setup_OUT brewPin;
    ev_gpio_setwarnings false; ev_gpio_output brewPin LOW;
    ev_lcd_setCursor 0 1; ev_lcd_message "Not brewing";
    ev_lcd_message splash; ev_sleep 1])%list.
Proof.
  destruct w0 as [b lt bs om os r lg].
  cbv beta iota zeta delta
    [startup lcd_begin lcd_setCursor GPIO_setmode_BCM GPIO_setup_OUT
     GPIO_setwarnings GPIO_output lcd_message sleep call assign bind ret
     set_brewing set_lcdTime set_brewString set_oldMin set_oldSec set_relay
     set_log brewing lcdTime brewString oldMin oldSec relay log
     Nat.eqb brewPin world_of].
  repeat rewrite <- app_assoc. reflexivity.
Qed.

(** C10. Start-up, from whatever the machine held before and whatever level
    the relay pin was at, returns with [brewing] false and the relay driven
    LOW exactly once, before any HTTP request is made; relay level and brew
    state agree when the loop is entered. *)
Theorem startup_forces_relay_low (w0 : world) :
  let w := world_of (startup w0) in
  returned (startup w0) = true /\
  brewing w = false /\
  relay w = LOW /\
  relay w = level_of (brewing w) /\
  relay_drives (events_of startup w0) = [LOW] /\
  requests (events_of startup w0) = [] /\
  relay (booted HIGH) = LOW /\ relay (booted LOW) = LOW.
Proof.
  unfold events_of. rewrite startup_log, skipn_app_exact.
  destruct w0 as [b lt bs om os r lg].
  repeat split.
Qed.

Lemma flips_body (data : string) (t1 t2 t3 : struct_time) :
  flips (Build_cycle_input (body data) t1 t2 t3) = (data =? "1").
Proof. reflexivity. Qed.

(** A pass that does not toggle leaves the brew side of the world alone. *)
Lemma no_flip_no_change (i : cycle_input) (w : world) :
  flips i = false ->
  brewing (cycle_world i w) = brewing w /\
  relay (cycle_world i w) = relay w /\
  brewString (cycle_world i w) = brewString w /\
  relay_drives (cycle_events i w) = [].
Proof.
  intros Hflip.
  unfold cycle_world, cycle_events, poll_events, transition_events,
    clock_events, brewing_after, relay_after, brewString_after.
  rewrite Hflip.
  destruct (reply i); simpl; auto.
  destruct (ticks i w); repeat split; reflexivity.
Qed.

Lemma flip_toggles (i : cycle_input) (w : world) :
  flips i = true ->
  brewing (cycle_world i w) = negb (brewing w) /\
  relay_drives (cycle_events i w) = [level_of (negb (brewing w))].
Proof.
  intros Hflip.
  unfold cycle_world, cycle_events, poll_events, transition_events,
    clock_events, brewing_after.
  destruct (reply i) as [e|e|data] eqn:E;
    try (unfold flips in Hflip; rewrite E in Hflip; discriminate).
  rewrite Hflip. simpl.
  destruct (ticks i w); split; reflexivity.
Qed.

(** C1. A pass that receives a response body toggles the brew state exactly
    when the body is the one-character string "1".  Any other body leaves
    brew state, relay level and status text alone and drives nothing; the
    bodies "0", "", "true", "11" and "1 " are among those. *)
Theorem exact_match_directive
  (w : world) (data : string) (t1 t2 t3 : struct_time) :
  let i := Build_cycle_input (body data) t1 t2 t3 in
  let w' := world_of (cycle i w) in
  (brewing w' = negb (brewing w) <-> data = "1") /\
  (data <> "1" ->
   brewing w' = brewing w /\ relay w' = relay w /\
   brewString w' = brewString w /\
   relay_drives (events_of (cycle i) w) = []) /\
  (forall d, In d ["0"; ""; "true"; "11"; "1 "] ->
   brewing (world_of (cycle (Build_cycle_input (body d) t1 t2 t3) w))
   = brewing w).
Proof.
  intros i w'. subst i w'.
  assert (Gno : forall d, d <> "1" ->
            let j := Build_cycle_input (body d) t1 t2 t3 in
            brewing (world_of (cycle j w)) = brewing w /\
            relay (world_of (cycle j w)) = relay w /\
            brewString (world_of (cycle j w)) = brewString w /\
            relay_drives (events_of (cycle j) w) = []).
  { intros d Hd j. subst j.
    rewrite cycle_world_of, cycle_events_of.
    apply no_flip_no_change.
    rewrite flips_body. now apply String.eqb_neq. }
  split; [split|split].
  - intros Hflip. destruct (string_dec data "1") as [|Hne]; auto.
    destruct (Gno data Hne) as [Hsame _]. rewrite Hsame in Hflip.
    destruct (brewing w); discriminate.
  - intros ->. rewrite cycle_world_of. now apply flip_toggles.
  - apply Gno.
  - intros d Hd. apply (Gno d).
    simpl in Hd.
    repeat (destruct Hd as [<-|Hd]; [discriminate|]). contradiction.
Qed.

(** C4. A pass whose body is not "1" leaves the brew state as it was and
    never drives the relay.  In any pass the relay is driven at most once,
    and it is driven exactly when the brew state changes, to the level of
    the new state. *)
Theorem negative_directive_is_identity (w : world) (i : cycle_input) :
  let w' := world_of (cycle i w) in
  let drives := relay_drives (events_of (cycle i) w) in
  (forall data, reply i = body data -> data <> "1" ->
     brewing w' = brewing w /\ relay w' = relay w /\
     brewString w' = brewString w /\ drives = []) /\
  length drives <= 1 /\
  drives = (if Bool.eqb (brewing w') (brewing w) then []
            else [level_of (brewing w')]).
Proof.
  intros w' drives. subst w' drives.
  rewrite cycle_world_of, cycle_events_of.
  split.
  - intros data E Hne. apply no_flip_no_change.
    unfold flips. rewrite E. now apply String.eqb_neq.
  - destruct (flips i) eqn:Hflip.
    + destruct (flip_toggles i w Hflip) as [-> ->].
      destruct (brewing w); split; simpl; auto.
    + destruct (no_flip_no_change i w Hflip) as (-> & _ & _ & ->).
      rewrite Bool.eqb_reflx. split; simpl; auto.
Qed.

Lemma on_screen_app (l r : list event) :
  on_screen (l ++ r) =
  fold_left (fun shown e =>
               match e with
               | ev_lcd_clear => []
               | ev_lcd_message text => (shown ++ [text])%list
               | _ => shown
               end) r (on_screen l).
Proof. unfold on_screen. apply fold_left_app. Qed.

(** Inside [start_brewing] the GPIO call comes first: the world it leaves
    has the relay HIGH and the status text untouched, and the rest of the
    function runs from there. *)
Lemma start_brewing_steps (w : world) :
  let w1 := world_of (GPIO_output brewPin HIGH w) in
  relay w1 = HIGH /\ brewString w1 = brewString w /\
  start_brewing w =
  (assign (set_brewing true) ;; assign (set_brewString "Brewing") ;;
   update_LCD) w1.
Proof. destruct w; repeat split. Qed.

(** The statements of [start_brewing] in the order they run.  Once the
    first one has run, the GPIO call is in the log and the relay is HIGH
    while [brewing] and the status text are still as they were; once the
    third has run, both are set and the display has not been touched yet. *)
Lemma start_brewing_order (v : world) :
  let v1 := after_statements 1 start_brewing_body v in
  let v3 := after_statements 3 start_brewing_body v in
  log v1 = (log v ++ [ev_gpio_output brewPin HIGH])%list /\
  relay v1 = HIGH /\
  brewing v1 = brewing v /\ brewString v1 = brewString v /\
  brewing v3 = true /\ brewString v3 = "Brewing" /\
  relay v3 = HIGH /\ log v3 = log v1 /\
  start_brewing v = block (skipn 1 start_brewing_body) v1.
Proof. destruct v; repeat split. Qed.

(** C5. Not brewing and /should_brew answers "1": the pass returns with
    [brewing] true, the relay HIGH and the status text "Brewing"; the
    display is cleared and rewritten with the new status, and the screen
    ends up showing it.  The relay is driven before the display call, and
    inside [start_brewing] the world right after the GPIO call has the
    relay HIGH while the status text is still the old one.  In program
    order: the first statement of [start_brewing] is the GPIO call, after
    which the status text is unchanged; the status text is "Brewing" only
    after the third statement, before any display call. *)
Theorem idle_brew_scenario (w : world) (i : cycle_input) :
  brewing w = false ->
  reply i = body "1" ->
  let w' := world_of (cycle i w) in
  returned (cycle i w) = true /\
  brewing w' = true /\ relay w' = HIGH /\ brewString w' = "Brewing" /\
  (exists rest,
     events_of (cycle i) w =
     ([ev_http_connection host; ev_http_request "GET" "/should_brew";
       ev_gpio_output brewPin HIGH;
       ev_lcd_clear; ev_lcd_message (lcdTime w ++ nl ++ "Brewing")]
      ++ rest)%list) /\
  on_screen (log w') = [lcdTime w' ++ nl ++ "Brewing"] /\
  (let w1 := world_of (GPIO_output brewPin HIGH w) in
   relay w1 = HIGH /\ brewString w1 = brewString w /\
   start_brewing w =
   (assign (set_brewing true) ;; assign (set_brewString "Brewing") ;;
    update_LCD) w1) /\
  (forall v,
     let v1 := after_statements 1 start_brewing_body v in
     let v3 := after_statements 3 start_brewing_body v in
     log v1 = (log v ++ [ev_gpio_output brewPin HIGH])%list /\
     relay v1 = HIGH /\
     brewing v1 = brewing v /\ brewString v1 = brewString v /\
     brewing v3 = true /\ brewString v3 = "Brewing" /\
     relay v3 = HIGH /\ log v3 = log v1 /\
     start_brewing v = block (skipn 1 start_brewing_body) v1).
Proof.
  intros Hidle Hreply w'. subst w'.
  rewrite cycle_world_of, cycle_events_of, cycle_returned.
  rewrite cycle_log, on_screen_app. unfold cycle_world.
  unfold cycle_events, poll_events, transition_events, clock_events,
    lcdTime_after, brewString_after, brewing_after, relay_after, flips.
  rewrite Hreply, Hidle. simpl.
  do 4 (split; [reflexivity|]).
  split; [eexists; reflexivity|].
  split; [destruct (ticks i w); reflexivity|].
  split; [apply start_brewing_steps | apply start_brewing_order].
Qed.

Lemma idle_brew_scenario_witness :
  let w := booted LOW in
  let i := Build_cycle_input (body "1") monday_1004 monday_1004 monday_1004 in
  let w' := world_of (cycle i w) in
  brewing w' = true /\ relay w' = HIGH /\ brewString w' = "Brewing".
Proof.
  intros w i w'.
  pose proof (idle_brew_scenario w i eq_refl eq_refl) as H.
  destruct H as (_ & Hb & Hr & Hs & _).
  repeat split; assumption.
Defined.

(** C6. [lcdTime] is reassigned only in a pass whose minute reading differs
    from [oldMin].  In a pass whose minute reading equals [oldMin], clock
    text and recorded minute stay as they are, and the only display write,
    if any, is the one made by a brew-state transition. *)
Theorem clock_refresh_only_on_minute_change (w : world) (i : cycle_input) :
  let w' := world_of (cycle i w) in
  (lcdTime w' <> lcdTime w -> strftime "%M" (now_test i) <> oldMin w) /\
  (strftime "%M" (now_test i) = oldMin w ->
   lcdTime w' = lcdTime w /\ oldMin w' = oldMin w /\
   display_writes (events_of (cycle i) w) =
   (if Bool.eqb (brewing w') (brewing w) then []
    else [lcdTime w ++ nl ++ brewString w'])).
Proof.
  intros w'. subst w'.
  rewrite cycle_world_of, cycle_events_of.
  assert (Hquiet : strftime "%M" (now_test i) = oldMin w -> ticks i w = false).
  { intros Heq. unfold ticks. rewrite Heq. now rewrite String.eqb_refl. }
  split.
  - intros Hchg Heq. apply Hchg.
    unfold cycle_world, lcdTime_after. rewrite (Hquiet Heq).
    destruct (reply i); reflexivity.
  - intros Heq.
    unfold cycle_world, cycle_events, poll_events, transition_events,
      clock_events, lcdTime_after, oldMin_after, brewString_after,
      brewing_after, flips.
    rewrite (Hquiet Heq).
    destruct (reply i) as [e|e|data]; simpl;
      try (rewrite Bool.eqb_reflx; repeat split; reflexivity).
    destruct (data =? "1"); simpl;
      destruct (brewing w); simpl; repeat split; reflexivity.
Qed.

Lemma clock_refresh_only_on_minute_change_witness :
  let w := world_of (program
             [Build_cycle_input (body "0") monday_1004 monday_1004 monday_1004]
             (power_on LOW)) in
  let i := Build_cycle_input (body "0") monday_1004 monday_1004 monday_1004 in
  lcdTime (world_of (cycle i w)) = lcdTime w /\
  display_writes (events_of (cycle i) w) = [].
Proof.
  intros w i.
  destruct (clock_refresh_only_on_minute_change w i) as [_ H].
  destruct (H eq_refl) as (Ht & _ & Hw).
  split; [exact Ht | exact Hw].
Defined.

(** ** The loop *)

Lemma main_loop_cons (i : cycle_input) (rest : list cycle_input) (w : world) :
  main_loop (i :: rest) w =
  match cycle i w with
  | Returned _ w' => main_loop rest w'
  | Raised e w' => Raised e w'
  end.
Proof. reflexivity. Qed.

Lemma program_from_boot (inputs : list cycle_input) (prior : level) :
  program inputs (power_on prior) = main_loop inputs (booted prior).
Proof. reflexivity. Qed.

(** The loop only ever adds to the log. *)
Lemma main_loop_log (inputs : list cycle_input) (w : world) :
  exists evs, log (world_of (main_loop inputs w)) = (log w ++ evs)%list.
Proof.
  revert w. induction inputs as [|i rest IH]; intros w.
  - exists []. simpl. now rewrite app_nil_r.
  - rewrite main_loop_cons.
    destruct (reply i) as [e|e|data] eqn:E.
    1,2: rewrite (cycle_raises i w e) by auto; simpl;
         exists (cycle_events i w); apply cycle_log.
    rewrite (cycle_returns i w data E).
    destruct (IH (cycle_world i w)) as [evs Hevs].
    exists (cycle_events i w ++ evs)%list.
    now rewrite Hevs, cycle_log, app_assoc.
Qed.

(** A property that every pass preserves holds of every world the loop can
    stop in, whether it ran out of inputs or was ended by an exception; the
    passes may be restricted to those that satisfy [Q]. *)
Lemma main_loop_preserves_when (Q : cycle_input -> Prop) (P : world -> Prop) :
  (forall i w, Q i -> P w -> P (cycle_world i w)) ->
  forall inputs w, Forall Q inputs -> P w -> P (world_of (main_loop inputs w)).
Proof.
  intros Hstep inputs.
  induction inputs as [|i rest IH]; intros w HQ Hw; [exact Hw|].
  inversion HQ as [|? ? Hi Hrest]; subst.
  rewrite main_loop_cons.
  pose proof (Hstep i w Hi Hw) as Hnext.
  rewrite <- cycle_world_of in Hnext.
  destruct (cycle i w) as [[] w'|e w']; simpl in *; auto.
Qed.

Lemma main_loop_preserves (P : world -> Prop) :
  (forall i w, P w -> P (cycle_world i w)) ->
  forall inputs w, P w -> P (world_of (main_loop inputs w)).
Proof.
  intros Hstep inputs w.
  apply (main_loop_preserves_when (fun _ => True) P); auto.
  apply Forall_forall. auto.
Qed.

Lemma relay_drives_cycle (i : cycle_input) (w : world) :
  relay_drives (cycle_events i w) =
  if flips i then [level_of (negb (brewing w))] else [].
Proof.
  unfold cycle_events, poll_events, transition_events, clock_events, flips.
  destruct (reply i) as [e|e|data]; simpl; auto.
  destruct (data =? "1"); simpl;
    destruct (ticks i w); reflexivity.
Qed.

Lemma cycle_fields (i : cycle_input) (w : world) :
  brewing (cycle_world i w) = brewing_after i w /\
  brewString (cycle_world i w) = brewString_after i w /\
  relay (cycle_world i w) = relay_after i w.
Proof.
  unfold cycle_world, brewing_after, brewString_after, relay_after, flips.
  destruct (reply i); repeat split; reflexivity.
Qed.

Lemma consistent_cycle (i : cycle_input) (w : world) :
  consistent w -> consistent (cycle_world i w).
Proof.
  intros (Hr & Hs & Hl). unfold consistent.
  destruct (cycle_fields i w) as (-> & -> & ->).
  unfold last_commanded.
  rewrite cycle_log, relay_drives_app, relay_drives_cycle, map_app.
  unfold brewing_after, brewString_after, relay_after.
  destruct (flips i); simpl.
  - repeat split; auto. apply last_last.
  - rewrite app_nil_r. repeat split; auto.
Qed.

Lemma consistent_booted (prior : level) : consistent (booted prior).
Proof. destruct prior; repeat split. Qed.

(** C2. In every world the script can be in between passes, or be stopped
    in by an exception, after start-up and any number of passes with any
    replies and clock readings: the relay is HIGH when [brewing] is true and
    LOW when it is false, and that level is the one most recently commanded
    on the pin. *)
Theorem relay_tracks_brew_state (prior : level) (inputs : list cycle_input) :
  let w := world_of (program inputs (power_on prior)) in
  relay w = level_of (brewing w) /\
  last_commanded (log w) = Some (level_of (brewing w)) /\
  brewString w = status_text (brewing w).
Proof.
  intros w. subst w. rewrite program_from_boot.
  destruct (main_loop_preserves consistent consistent_cycle inputs
              (booted prior) (consistent_booted prior)) as (Hr & Hs & Hl).
  rewrite <- Hr. auto.
Qed.

(** C8, as the script has it.  A request or response that raises while the
    controller is not brewing leaves [brewing] false and the relay LOW,
    drives nothing and writes nothing to the display; but nothing catches
    the exception: the pass ends with it, and so does the loop, whatever
    passes were still to come. *)
Theorem network_failure_ends_loop
  (w : world) (i : cycle_input) (e : exn) (rest : list cycle_input) :
  brewing w = false ->
  relay w = LOW ->
  reply i = request_raises e \/ reply i = response_raises e ->
  let w' := world_of (cycle i w) in
  brewing w' = false /\ relay w' = LOW /\
  relay_drives (events_of (cycle i) w) = [] /\
  display_writes (events_of (cycle i) w) = [] /\
  requests (events_of (cycle i) w) = ["/should_brew"] /\
  cycle i w = Raised e w' /\
  main_loop (i :: rest) w = Raised e w'.
Proof.
  intros Hidle Hlow Hfail w'. subst w'.
  rewrite main_loop_cons, (cycle_raises i w e Hfail). simpl.
  rewrite cycle_events_of.
  unfold cycle_world, cycle_events, poll_events.
  destruct Hfail as [-> | ->]; simpl; rewrite Hidle;
    repeat split; auto.
Qed.

Lemma network_failure_ends_loop_witness :
  main_loop [timeout_pass; brew_pass] (booted LOW) =
  Raised socket_timeout (world_of (cycle timeout_pass (booted LOW))).
Proof.
  apply (network_failure_ends_loop (booted LOW) timeout_pass socket_timeout
           [brew_pass] eq_refl eq_refl (or_intror eq_refl)).
Defined.

(** After a timeout while not brewing the loop does not go on, so a timeout
    is not handled like a negative reply.  With a second pass whose reply
    would be "1" still to come, the run ends in the exception after a single
    request, still not brewing, whereas a negative reply in the first pass
    lets the second one run and start the brew. *)
Lemma timeout_is_not_a_negative_directive :
  brewing (booted LOW) = false /\
  returned (main_loop [timeout_pass; brew_pass] (booted LOW)) = false /\
  requests (events_of (main_loop [timeout_pass; brew_pass]) (booted LOW))
  = ["/should_brew"] /\
  brewing (world_of (main_loop [timeout_pass; brew_pass] (booted LOW)))
  = false /\
  returned (main_loop [quiet_pass; brew_pass] (booted LOW)) = true /\
  brewing (world_of (main_loop [quiet_pass; brew_pass] (booted LOW)))
  = true.
Proof. vm_compute. repeat split. Qed.

(** ** Strings and the clock text *)

Lemma append_length (a b : string) :
  String.length (a ++ b) = String.length a + String.length b.
Proof.
  induction a as [|c a IH]; [reflexivity|].
  change (S (String.length (a ++ b)) = S (String.length a + String.length b)).
  now rewrite IH.
Qed.

Lemma append_assoc (a b c : string) : (a ++ b) ++ c = a ++ (b ++ c).
Proof.
  induction a as [|x a IH]; [reflexivity|].
  change (String x ((a ++ b) ++ c) = String x (a ++ (b ++ c))).
  now rewrite IH.
Qed.

Lemma append_cancel_l (a x y : string) : a ++ x = a ++ y -> x = y.
Proof.
  induction a as [|c a IH]; intros H; [exact H|].
  change (String c (a ++ x) = String c (a ++ y)) in H.
  injection H as H. auto.
Qed.

(** Two strings that end in tails of one length end in the same tail. *)
Lemma append_same_tail (a b x y : string) :
  a ++ x = b ++ y -> String.length x = String.length y -> x = y.
Proof.
  revert b. induction a as [|c a IH]; intros [|d b] H Hlen.
  - exact H.
  - apply (f_equal String.length) in H.
    rewrite (append_length (String d b) y) in H.
    change (String.length ("" ++ x)) with (String.length x) in H.
    simpl in H. lia.
  - apply (f_equal String.length) in H.
    rewrite (append_length (String c a) x) in H.
    change (String.length ("" ++ y)) with (String.length y) in H.
    simpl in H. lia.
  - change (String c (a ++ x) = String d (b ++ y)) in H.
    injection H as _ H. eauto.
Qed.

Lemma has_newline_rendered (a b : string) : has_newline (a ++ nl ++ b) = true.
Proof.
  induction a as [|c a IH]; [reflexivity|].
  change (Ascii.eqb c (ascii_of_nat 10) || has_newline (a ++ nl ++ b) = true).
  rewrite IH. apply orb_true_r.
Qed.

Lemma rendered_is_not_splash (a b : string) : a ++ nl ++ b <> splash.
Proof.
  intros H. pose proof (has_newline_rendered a b) as Hn.
  rewrite H in Hn. vm_compute in Hn. discriminate.
Qed.

Lemma strftime_M (t : struct_time) :
  strftime "%M" t = two_digits (tm_min t).
Proof. reflexivity. Qed.

Lemma strftime_text_minute (t : struct_time) :
  strftime "%a %b %d %H:%M" t = before_minute t ++ strftime "%M" t.
Proof.
  rewrite strftime_M. unfold before_minute.
  change (strftime "%a %b %d %H:%M" t)
    with (abbr_day (tm_wday t) ++ String " "
            (abbr_month (tm_mon t) ++ String " "
               (two_digits (tm_mday t) ++ String " "
                  (two_digits (tm_hour t) ++ String ":"
                     (two_digits (tm_min t) ++ ""))))).
  repeat rewrite append_assoc.
  reflexivity.
Qed.

Lemma strftime_M_not_empty (t : struct_time) : strftime "%M" t <> "".
Proof. rewrite strftime_M. discriminate. Qed.

(** Two readings that give one clock text give one minute, whatever status
    text follows the line feed. *)
Lemma same_text_same_minute (t t' : struct_time) (s : string) :
  strftime "%a %b %d %H:%M" t ++ nl ++ s =
  strftime "%a %b %d %H:%M" t' ++ nl ++ s ->
  strftime "%M" t = strftime "%M" t'.
Proof.
  intros H.
  rewrite (strftime_text_minute t), (strftime_text_minute t') in H.
  rewrite (append_assoc (before_minute t)),
          (append_assoc (before_minute t')) in H.
  apply append_same_tail in H.
  - rewrite !strftime_M in *.
    change (String (digit (tm_min t / 10))
              (String (digit (tm_min t)) (nl ++ s)) =
            String (digit (tm_min t' / 10))
              (String (digit (tm_min t')) (nl ++ s))) in H.
    injection H as H1 H2. unfold two_digits.
    f_equal; [exact H1 | f_equal; exact H2].
  - rewrite !append_length, !strftime_M. reflexivity.
Qed.

(** ** The display *)

Lemma display_writes_cycle (i : cycle_input) (w : world) :
  display_writes (cycle_events i w) =
  match reply i with
  | body _ => (transition_write i w ++ clock_write i w)%list
  | _ => []
  end.
Proof.
  unfold cycle_events, poll_events, transition_events, clock_events,
    transition_write, clock_write.
  destruct (reply i) as [e|e|data] eqn:E; simpl; auto.
  destruct (flips i); destruct (ticks i w); reflexivity.
Qed.


Lemma first_pass_ticks (prior : level) (i : cycle_input) :
  ticks i (booted prior) = true.
Proof.
  unfold ticks. replace (oldMin (booted prior)) with "" by now destruct prior.
  destruct (String.eqb_spec (strftime "%M" (now_test i)) "") as [H|H]; auto.
  now apply strftime_M_not_empty in H.
Qed.

Lemma shows_variables_cycle (i : cycle_input) (w : world) :
  shows_variables w -> shows_variables (cycle_world i w).
Proof.
  intros [Hscreen Hcons]. split; [|now apply consistent_cycle].
  rewrite cycle_log, on_screen_app, Hscreen.
  unfold cycle_world, cycle_events, poll_events, transition_events,
    clock_events, lcdTime_after, brewString_after.
  destruct (reply i); simpl; auto.
  destruct (flips i); destruct (ticks i w); reflexivity.
Qed.

Lemma first_pass_shows_variables
  (prior : level) (i : cycle_input) (data : string) :
  reply i = body data -> shows_variables (cycle_world i (booted prior)).
Proof.
  intros E. split; [|apply consistent_cycle, consistent_booted].
  rewrite cycle_log, on_screen_app.
  unfold cycle_world, cycle_events, poll_events, transition_events,
    clock_events, lcdTime_after, brewString_after.
  rewrite E, first_pass_ticks.
  destruct (flips i); reflexivity.
Qed.


Lemma stutter_free_snoc (l : list string) (a b : string) :
  stutter_free (l ++ [a]) -> a <> b -> stutter_free ((l ++ [a]) ++ [b]).
Proof.
  induction l as [|x l IH]; intros Hl Hab.
  - simpl. auto.
  - destruct l as [|y l].
    + simpl in *. destruct Hl as [Hxa _]. auto.
    + change (x <> y /\ stutter_free (((y :: l) ++ [a]) ++ [b])).
      change (x <> y /\ stutter_free ((y :: l) ++ [a])) in Hl.
      destruct Hl as [Hxy Hl]. split; auto.
Qed.

Lemma stutter_free_snoc2 (l : list string) (a b c : string) :
  stutter_free (l ++ [a]) -> a <> b -> b <> c ->
  stutter_free ((l ++ [a]) ++ [b; c]).
Proof.
  intros Hl Hab Hbc.
  replace ((l ++ [a]) ++ [b; c])%list with (((l ++ [a]) ++ [b]) ++ [c])%list
    by now rewrite <- (app_assoc (l ++ [a]) [b] [c]).
  apply (stutter_free_snoc (l ++ [a]) b c); auto.
  apply stutter_free_snoc; auto.
Qed.

Lemma transition_write_differs (w : world) :
  brewString w = status_text (brewing w) ->
  lcdTime w ++ nl ++ status_text (negb (brewing w)) <>
  lcdTime w ++ nl ++ brewString w.
Proof.
  intros -> H. apply append_cancel_l in H.
  destruct (brewing w); discriminate H.
Qed.

Lemma ticks_true (i : cycle_input) (w : world) :
  ticks i w = true -> strftime "%M" (now_test i) <> oldMin w.
Proof.
  unfold ticks. destruct (String.eqb_spec (strftime "%M" (now_test i)) (oldMin w));
    [discriminate | auto].
Qed.

Lemma ticks_false (i : cycle_input) (w : world) :
  ticks i w = false -> strftime "%M" (now_test i) = oldMin w.
Proof.
  unfold ticks. destruct (String.eqb_spec (strftime "%M" (now_test i)) (oldMin w));
    [auto | discriminate].
Qed.

Lemma clock_write_differs (i : cycle_input) (w : world) (s : string) :
  same_minute i -> synced w -> ticks i w = true ->
  strftime "%a %b %d %H:%M" (now_text i) ++ nl ++ s <> lcdTime w ++ nl ++ s.
Proof.
  intros [Htext _] Hsync Htick H. apply ticks_true in Htick.
  destruct Hsync as [[Hlt _] | (t & Hlt & Hom)]; rewrite Hlt in H.
  - apply (f_equal String.length) in H.
    rewrite strftime_text_minute, !append_length, strftime_M in H.
    simpl in H. lia.
  - apply same_text_same_minute in H. congruence.
Qed.

Lemma synced_cycle (i : cycle_input) (w : world) :
  same_minute i -> synced w -> synced (cycle_world i w).
Proof.
  intros [Htext Hreset] Hsync.
  unfold synced, cycle_world, lcdTime_after, oldMin_after.
  destruct (reply i); auto.
  destruct (ticks i w); auto.
  right. exists (now_text i). simpl. split; congruence.
Qed.

Lemma debounced_cycle (i : cycle_input) (w : world) :
  same_minute i -> debounced w -> debounced (cycle_world i w).
Proof.
  intros Hmin (Hs & Hsync & Hfree & ws & m & Hlog & Hm).
  pose proof (synced_cycle i w Hmin Hsync) as Hsync'.
  pose proof (transition_write_differs w Hs) as Htw.
  unfold debounced.
  rewrite cycle_log, display_writes_app, display_writes_cycle.
  destruct (cycle_fields i w) as (Hb' & Hs' & _).
  assert (Hstatus : brewString (cycle_world i w)
                    = status_text (brewing (cycle_world i w))).
  { rewrite Hb', Hs'. unfold brewing_after, brewString_after.
    destruct (flips i); auto. }
  split; [exact Hstatus|]. split; [exact Hsync'|].
  clear Hsync' Hstatus Hb'. rewrite Hs'. clear Hs'.
  unfold cycle_world, lcdTime_after.
  destruct (reply i) as [e|e|data] eqn:E; simpl.
  1,2: unfold brewString_after, flips; rewrite E, app_nil_r;
       split; [exact Hfree | exists ws, m; auto].
  unfold transition_write, clock_write, brewString_after.
  rewrite Hlog in *.
  destruct (flips i) eqn:Hflip; destruct (ticks i w) eqn:Htick; simpl.
  - (* transition, then clock refresh *)
    assert (H1 : m <> lcdTime w ++ nl ++ status_text (negb (brewing w))).
    { destruct Hm as [-> | ->]; [|congruence].
      intros H; symmetry in H; exact (rendered_is_not_splash _ _ H). }
    pose proof (clock_write_differs i w (status_text (negb (brewing w)))
                  Hmin Hsync Htick) as H2.
    split.
    + apply stutter_free_snoc2; auto.
    + exists ((ws ++ [m]) ++
              [(lcdTime w ++ nl ++ status_text (negb (brewing w)))%string])%list,
             (strftime "%a %b %d %H:%M" (now_text i) ++ nl
              ++ status_text (negb (brewing w))).
      split; [now rewrite <- (app_assoc (ws ++ [m])) | auto].
  - (* transition only *)
    assert (H1 : m <> lcdTime w ++ nl ++ status_text (negb (brewing w))).
    { destruct Hm as [-> | ->]; [|congruence].
      intros H; symmetry in H; exact (rendered_is_not_splash _ _ H). }
    split; [apply stutter_free_snoc; auto|].
    exists (ws ++ [m])%list,
           (lcdTime w ++ nl ++ status_text (negb (brewing w))). auto.
  - (* clock refresh only *)
    assert (H2 : m <> strftime "%a %b %d %H:%M" (now_text i) ++ nl
                      ++ brewString w).
    { destruct Hm as [-> | ->].
      - intros H; symmetry in H; exact (rendered_is_not_splash _ _ H).
      - intros H; symmetry in H.
        exact (clock_write_differs i w (brewString w) Hmin Hsync Htick H). }
    split; [apply stutter_free_snoc; auto|].
    exists (ws ++ [m])%list,
           (strftime "%a %b %d %H:%M" (now_text i) ++ nl ++ brewString w).
    auto.
  - (* nothing to show *)
    rewrite app_nil_r. split; [exact Hfree | exists ws, m; auto].
Qed.

Lemma debounced_booted (prior : level) : debounced (booted prior).
Proof.
  unfold debounced.
  replace (display_writes (log (booted prior)))
    with ["Not brewing"; splash] by now destruct prior.
  split; [now destruct prior|].
  split; [left; now destruct prior|].
  split; [simpl; split; [discriminate | exact I]|].
  exists ["Not brewing"], splash. auto.
Qed.

(** A pass that returns, with its readings in one minute, leaves [oldMin] at
    that minute whether or not it refreshed the clock. *)
Lemma oldMin_after_pass (i : cycle_input) (w : world) (data : string) :
  reply i = body data -> same_minute i ->
  oldMin (cycle_world i w) = strftime "%M" (now_test i).
Proof.
  intros E [_ Hreset]. unfold cycle_world, oldMin_after. rewrite E. simpl.
  destruct (ticks i w) eqn:Htick; [exact Hreset|].
  symmetry. now apply ticks_false.
Qed.

(** C7, as the script has it.  The script keeps no record of what it last
    wrote; it renders on a brew-state transition and on a minute change.
    When the clock readings of every pass fall in one minute, that comes to
    the same: from start-up on no display write repeats the text written
    just before it, and the text on show is the pair held in [lcdTime] and
    [brewString]; and of two passes in a row with the same clock text and no
    change of brew state, the second writes nothing. *)
Theorem renders_only_on_change (prior : level) (inputs : list cycle_input) :
  Forall same_minute inputs ->
  debounced (world_of (program inputs (power_on prior))) /\
  stutter_free
    (display_writes (log (world_of (program inputs (power_on prior))))) /\
  (forall w i1 i2,
     same_minute i1 -> same_minute i2 ->
     returned (cycle i1 w) = true ->
     let w1 := world_of (cycle i1 w) in
     strftime "%a %b %d %H:%M" (now_text i2)
     = strftime "%a %b %d %H:%M" (now_text i1) ->
     brewing (world_of (cycle i2 w1)) = brewing w1 ->
     display_writes (events_of (cycle i2) w1) = []).
Proof.
  intros Hmin.
  assert (Hinv : debounced (world_of (program inputs (power_on prior)))).
  { rewrite program_from_boot.
    apply (main_loop_preserves_when same_minute debounced debounced_cycle);
      [exact Hmin | apply debounced_booted]. }
  split; [exact Hinv|]. split; [apply Hinv|].
  intros w i1 i2 H1 H2 Hret w1 Htext Hsame. subst w1.
  rewrite cycle_returned in Hret.
  destruct (reply i1) as [e|e|d1] eqn:E1; try discriminate.
  rewrite cycle_events_of, display_writes_cycle.
  rewrite !cycle_world_of in *.
  assert (Hquiet : ticks i2 (cycle_world i1 w) = false).
  { unfold ticks. rewrite (oldMin_after_pass i1 w d1 E1 H1).
    assert (Hm : strftime "%M" (now_text i2) = strftime "%M" (now_text i1)).
    { apply (same_text_same_minute _ _ ""). now rewrite Htext. }
    destruct H1 as [H1 _]. destruct H2 as [H2 _].
    rewrite <- H2, Hm, H1. now rewrite String.eqb_refl. }
  assert (Hstay : flips i2 = false).
  { destruct (cycle_fields i2 (cycle_world i1 w)) as (Hb & _).
    rewrite Hb in Hsame. unfold brewing_after in Hsame.
    destruct (flips i2); auto.
    destruct (brewing (cycle_world i1 w)); discriminate. }
  unfold transition_write, clock_write. rewrite Hquiet, Hstay.
  destruct (reply i2); reflexivity.
Qed.

Lemma renders_only_on_change_witness :
  stutter_free
    (display_writes
       (log (world_of (program [brew_pass; quiet_pass] (power_on HIGH))))) /\
  display_writes
    (events_of (cycle quiet_pass) (world_of (cycle brew_pass (booted HIGH))))
  = [].
Proof.
  assert (Hq : same_minute quiet_pass) by (split; reflexivity).
  assert (Hb : same_minute brew_pass) by (split; reflexivity).
  destruct (renders_only_on_change HIGH [brew_pass; quiet_pass]
              (Forall_cons _ Hb (Forall_cons _ Hq (Forall_nil _))))
    as (_ & Hfree & Hnext).
  split; [exact Hfree|].
  apply (Hnext (booted HIGH) brew_pass quiet_pass Hb Hq);
    reflexivity.
Defined.

(** Without that proviso a pair can be written twice in a row.  The first
    pass reads 10:04 for the test and for the clock text, and 10:05 for
    [oldMin]; the clock is then set back a little, and the second pass reads
    10:04 throughout.  Its minute test fires and it writes the very pair
    that is already on the display, with the brew state unchanged.  The same
    happens when the second pass gets the readings of the first once
    more. *)
Lemma same_pair_rendered_twice :
  let w1 := world_of (program [split_pass] (power_on LOW)) in
  let w2 := world_of (cycle quiet_pass w1) in
  let shown := "Mon Jan 01 10:04" ++ nl ++ "Not brewing" in
  returned (program [split_pass; quiet_pass] (power_on LOW)) = true /\
  on_screen (log w1) = [shown] /\
  (lcdTime w1, brewString w1) = ("Mon Jan 01 10:04", "Not brewing") /\
  display_writes (events_of (cycle quiet_pass) w1) = [shown] /\
  (lcdTime w2, brewString w2, brewing w2)
  = (lcdTime w1, brewString w1, brewing w1) /\
  ~ stutter_free (display_writes (log w2)) /\
  display_writes (events_of (cycle split_pass) w1) = [shown].
Proof.
  vm_compute.
  repeat split; try reflexivity.
  intros (_ & _ & H & _). apply H. reflexivity.
Qed.


(** * Further properties of the script *)

(** ** Stopping a brew *)





(** X2. [start_brewing] and [stop_brewing] undo each other.  In a world
    whose relay level and status text match the brew state, starting and
    then stopping (or, when brewing, stopping and then starting) gives back
    every variable and the relay level; what remains are two relay drives
    and two renders in the log. *)
Theorem start_stop_round_trip (w : world) :
  relay w = level_of (brewing w) ->
  brewString w = status_text (brewing w) ->
  let there_and_back :=
    if brewing w then (stop_brewing ;; start_brewing)
    else (start_brewing ;; stop_brewing) in
  set_log (log w) (world_of (there_and_back w)) = w /\
  relay_drives (events_of there_and_back w)
  = [level_of (negb (brewing w)); level_of (brewing w)] /\
  display_writes (events_of there_and_back w)
  = [lcdTime w ++ nl ++ status_text (negb (brewing w));
     lcdTime w ++ nl ++ status_text (brewing w)].
Proof.
  destruct w as [b lt bs om os r lg]. simpl.
  intros -> ->.
  destruct b; unfold events_of; eval_script;
    repeat rewrite <- app_assoc; rewrite skipn_app_exact;
    repeat split.
Qed.

Lemma start_stop_round_trip_witness :
  set_log (log (booted LOW))
          (world_of ((start_brewing ;; stop_brewing) (booted LOW)))
  = booted LOW.
Proof.
  apply (start_stop_round_trip (booted LOW) eq_refl eq_refl).
Defined.

(** ** What one pass adds to the log *)

(** X3. A pass with a reply other than "1" in a minute already recorded
    changes no variable and leaves the relay alone: all it does is open the
    connection, send the one request, close and sleep. *)
Theorem quiet_pass_only_polls (w : world) (i : cycle_input) (data : string) :
  reply i = body data ->
  data <> "1" ->
  strftime "%M" (now_test i) = oldMin w ->
  cycle i w =
  Returned tt
    (set_log (log w ++
              [ev_http_connection host;
               ev_http_request "GET" (endpoint_for (brewing w));
               ev_http_close; ev_sleep 1]) w).
Proof.
  intros E Hne Hmin.
  rewrite (cycle_returns i w data E).
  unfold cycle_world, cycle_events, poll_events, transition_events,
    clock_events, brewing_after, brewString_after, relay_after,
    lcdTime_after, oldMin_after, flips, ticks.
  rewrite E, Hmin, String.eqb_refl.
  apply String.eqb_neq in Hne. rewrite Hne.
  destruct w; reflexivity.
Qed.

Lemma quiet_pass_only_polls_witness :
  let w := world_of (cycle quiet_pass (booted LOW)) in
  brewing (world_of (cycle quiet_pass w)) = brewing w /\
  lcdTime (world_of (cycle quiet_pass w)) = lcdTime w.
Proof.
  intros w.
  assert (Hne : "0" <> "1") by discriminate.
  rewrite (quiet_pass_only_polls w quiet_pass "0" eq_refl Hne eq_refl).
  split; reflexivity.
Defined.

Lemma count_app (p : event -> bool) (l r : list event) :
  count p (l ++ r) = count p l + count p r.
Proof.
  unfold count. induction l as [|e l IH]; [reflexivity|].
  simpl. destruct (p e); simpl; now rewrite IH.
Qed.

(** X4. Every pass opens exactly one connection, as its first call.  A pass
    that returns closes it once and sleeps once, as its last call; a pass
    ended by an exception makes no call after the request: the connection
    stays open and there is no sleep. *)
Theorem connection_per_pass (w : world) (i : cycle_input) :
  let evs := events_of (cycle i) w in
  count is_connection evs = 1 /\
  hd_error evs = Some (ev_http_connection host) /\
  (if returned (cycle i w) then
     count is_close evs = 1 /\ count is_sleep evs = 1 /\
     last evs ev_http_close = ev_sleep 1
   else
     evs = [ev_http_connection host;
            ev_http_request "GET" (endpoint_for (brewing w))]).
Proof.
  intros evs. subst evs.
  rewrite cycle_events_of, cycle_returned.
  unfold cycle_events, poll_events, transition_events, clock_events.
  destruct (reply i); simpl; auto.
  destruct (flips i); destruct (ticks i w); repeat split.
Qed.

Lemma connections_balance (inputs : list cycle_input) (w : world) :
  let o := main_loop inputs w in
  count is_connection (log (world_of o)) + count is_close (log w) =
  count is_connection (log w) + count is_close (log (world_of o))
  + (if returned o then 0 else 1).
Proof.
  revert w. induction inputs as [|i rest IH]; intros w; simpl.
  - lia.
  - fold (main_loop rest).
    change (bind (cycle i) (fun _ => main_loop rest) w)
      with (main_loop (i :: rest) w).
    rewrite main_loop_cons.
    assert (Hpass :
      count is_connection (cycle_events i w) = 1 /\
      count is_close (cycle_events i w)
      = match reply i with body _ => 1 | _ => 0 end).
    { unfold cycle_events, poll_events, transition_events, clock_events.
      destruct (reply i); simpl; auto.
      destruct (flips i); destruct (ticks i w); split; reflexivity. }
    destruct Hpass as [Hc Hx].
    destruct (reply i) as [e|e|data] eqn:E.
    1,2: rewrite (cycle_raises i w e) by auto; simpl;
         rewrite cycle_log, !count_app, Hc, Hx; lia.
    rewrite (cycle_returns i w data E).
    specialize (IH (cycle_world i w)). simpl in IH.
    rewrite cycle_log, !count_app, Hc, Hx in IH. lia.
Qed.

(** X5. Over a whole run, start-up included, every connection opened has
    been closed, except that a run ended by an exception leaves exactly one
    connection open. *)
Theorem at_most_one_open_connection
  (prior : level) (inputs : list cycle_input) :
  let o := program inputs (power_on prior) in
  count is_connection (log (world_of o)) =
  count is_close (log (world_of o)) + (if returned o then 0 else 1).
Proof.
  intros o. subst o. rewrite program_from_boot.
  pose proof (connections_balance inputs (booted prior)) as H.
  cbv zeta in H.
  assert (Hx : count is_close (log (booted prior)) = 0)
    by now destruct prior.
  assert (Hc : count is_connection (log (booted prior)) = 0)
    by now destruct prior.
  rewrite Hx, Hc in H.
  destruct (returned (main_loop inputs (booted prior))); lia.
Qed.

(** X6. A pass renders at most twice, and each render is a clear followed
    at once by one write.  It renders twice when the reply is "1" and the
    minute has changed: first the new status under the clock text it still
    had, then the new clock text and the new status. *)
Theorem renders_per_pass (w : world) (i : cycle_input) :
  let evs := events_of (cycle i) w in
  writes_follow_clear false evs = true /\
  count is_clear evs = length (display_writes evs) /\
  length (display_writes evs) <= 2 /\
  (reply i = body "1" ->
   strftime "%M" (now_test i) <> oldMin w ->
   display_writes evs =
   [lcdTime w ++ nl ++ status_text (negb (brewing w));
    strftime "%a %b %d %H:%M" (now_text i) ++ nl
    ++ status_text (negb (brewing w))]).
Proof.
  intros evs. subst evs. rewrite cycle_events_of.
  unfold cycle_events, poll_events, transition_events, clock_events,
    brewString_after.
  destruct (reply i) as [e|e|data] eqn:E; simpl.
  1,2: repeat split; auto; discriminate.
  destruct (flips i) eqn:Hflip; destruct (ticks i w) eqn:Htick; simpl;
    repeat split; auto; intros Hone Hmin.
  - apply String.eqb_neq in Hmin. unfold ticks in Htick.
    rewrite Hmin in Htick. discriminate.
  - unfold flips in Hflip. rewrite E in Hflip.
    injection Hone as ->. discriminate.
  - unfold flips in Hflip. rewrite E in Hflip.
    injection Hone as ->. discriminate.
Qed.

Lemma renders_per_pass_witness :
  length (display_writes (events_of (cycle brew_pass) (booted LOW))) = 2.
Proof.
  destruct (renders_per_pass (booted LOW) brew_pass) as (_ & _ & _ & H).
  rewrite (H eq_refl (strftime_M_not_empty monday_1004)).
  reflexivity.
Defined.

(** ** Whole runs *)

Lemma main_loop_parity (inputs : list cycle_input) (w : world) :
  returned (main_loop inputs w) = true ->
  brewing (world_of (main_loop inputs w)) =
  xorb (brewing w) (Nat.odd (length (filter flips inputs))).
Proof.
  revert w. induction inputs as [|i rest IH]; intros w.
  - intros _. simpl. now rewrite xorb_false_r.
  - rewrite main_loop_cons.
    destruct (reply i) as [e|e|data] eqn:E.
    1,2: rewrite (cycle_raises i w e) by auto; discriminate.
    rewrite (cycle_returns i w data E). intros Hret.
    rewrite (IH _ Hret).
    destruct (cycle_fields i w) as (-> & _ & _).
    unfold brewing_after. simpl.
    destruct (flips i); simpl; auto.
    rewrite Nat.odd_succ, <- Nat.negb_odd.
    destruct (brewing w); destruct (Nat.odd _); reflexivity.
Qed.

(** X7. "1" is a toggle, not a level.  After a run in which every pass
    returned, the controller is brewing exactly when the number of passes
    whose reply was "1" is odd. *)
Theorem brew_state_is_parity (prior : level) (inputs : list cycle_input) :
  returned (program inputs (power_on prior)) = true ->
  brewing (world_of (program inputs (power_on prior))) =
  Nat.odd (length (filter flips inputs)).
Proof.
  rewrite program_from_boot. intros Hret.
  rewrite (main_loop_parity inputs (booted prior) Hret).
  now destruct prior.
Qed.

Lemma brew_state_is_parity_witness :
  brewing (world_of (program [brew_pass; quiet_pass; brew_pass; brew_pass]
                             (power_on LOW))) = true.
Proof.
  apply (brew_state_is_parity LOW [brew_pass; quiet_pass; brew_pass; brew_pass]
           eq_refl).
Defined.

(** X8. The display never lags behind the variables.  Until a first pass has
    returned, the screen holds what start-up wrote, "Not brewing" and the
    splash, and the controller is not brewing.  From then on, whatever the
    replies and clock readings and also when the run ends in an exception,
    the screen holds exactly the clock text in [lcdTime] and the status of
    the current brew state; the relay level is that of the brew state
    throughout. *)
Theorem screen_shows_variables (prior : level) (inputs : list cycle_input) :
  let w := world_of (program inputs (power_on prior)) in
  let started :=
    match inputs with
    | i :: _ => returned (cycle i (booted prior))
    | [] => false
    end in
  relay w = level_of (brewing w) /\
  (if started then
     on_screen (log w) = [lcdTime w ++ nl ++ status_text (brewing w)]
   else
     on_screen (log w) = ["Not brewing"; splash] /\ brewing w = false).
Proof.
  intros w started. subst w started. rewrite program_from_boot.
  split.
  { apply (main_loop_preserves consistent consistent_cycle),
      consistent_booted. }
  destruct inputs as [|i rest].
  { simpl. now destruct prior. }
  rewrite main_loop_cons, cycle_returned.
  destruct (reply i) as [e|e|data] eqn:E.
  1,2: rewrite (cycle_raises i (booted prior) e) by auto; simpl;
       rewrite cycle_log, on_screen_app;
       unfold cycle_world, cycle_events, poll_events; rewrite E;
       now destruct prior.
  rewrite (cycle_returns i (booted prior) data E).
  destruct (main_loop_preserves shows_variables shows_variables_cycle rest
              (cycle_world i (booted prior))
              (first_pass_shows_variables prior i data E))
    as (Hscreen & _ & Hs & _).
  now rewrite Hscreen, Hs.
Qed.

Lemma neighbours_differ_snoc (A : Type) (l : list A) (a b : A) :
  neighbours_differ (l ++ [a]) -> a <> b ->
  neighbours_differ ((l ++ [a]) ++ [b]).
Proof.
  induction l as [|x l IH]; intros Hl Hab.
  - simpl. auto.
  - destruct l as [|y l].
    + simpl in *. destruct Hl as [Hxa _]. auto.
    + change (x <> y /\ neighbours_differ (((y :: l) ++ [a]) ++ [b])).
      change (x <> y /\ neighbours_differ ((y :: l) ++ [a])) in Hl.
      destruct Hl as [Hxy Hl]. split; auto.
Qed.

Lemma hd_error_app (A : Type) (l r : list A) (a : A) :
  hd_error l = Some a -> hd_error (l ++ r) = Some a.
Proof. destruct l; [discriminate | auto]. Qed.

Lemma relay_alternates_cycle (i : cycle_input) (w : world) :
  relay_alternates w -> relay_alternates (cycle_world i w).
Proof.
  intros (Hr & Hhd & Hdiff & ds & Hds).
  unfold relay_alternates.
  destruct (cycle_fields i w) as (-> & _ & ->).
  rewrite cycle_log, relay_drives_app, relay_drives_cycle.
  unfold brewing_after, relay_after.
  destruct (flips i).
  - split; [reflexivity|]. split; [now apply hd_error_app|].
    rewrite Hds in *. split.
    + apply neighbours_differ_snoc; auto.
      rewrite Hr. destruct (brewing w); discriminate.
    + now exists (ds ++ [relay w])%list.
  - rewrite app_nil_r. repeat split; auto. now exists ds.
Qed.

(** X9. The script never drives the relay to the level it already commanded.
    Over any run the GPIO.output calls on the relay pin start with the LOW
    of start-up and then alternate HIGH, LOW, HIGH, ..., the last one being
    the level the relay is at. *)
Theorem relay_never_redriven (prior : level) (inputs : list cycle_input) :
  let w := world_of (program inputs (power_on prior)) in
  hd_error (relay_drives (log w)) = Some LOW /\
  neighbours_differ (relay_drives (log w)) /\
  last (relay_drives (log w)) HIGH = relay w.
Proof.
  intros w. subst w. rewrite program_from_boot.
  assert (Hboot : relay_alternates (booted prior)).
  { unfold relay_alternates.
    replace (relay_drives (log (booted prior))) with [LOW]
      by now destruct prior.
    replace (relay (booted prior)) with LOW by now destruct prior.
    repeat split; auto. now exists []. }
  destruct (main_loop_preserves relay_alternates relay_alternates_cycle
              inputs (booted prior) Hboot) as (_ & Hhd & Hdiff & ds & Hds).
  repeat split; auto.
  rewrite Hds. apply last_last.
Qed.

(** ** The clock line *)



(** X11. What the minute test compares with is the minute read after the
    render, not the minute on the display.  After a pass that refreshed the
    clock, the next pass refreshes it exactly when its own minute reading
    differs from the third reading of that pass; if the two agree, the clock
    text read second in the earlier pass stays on, whatever minute it
    shows. *)
Theorem refresh_test_uses_recorded_minute
  (w : world) (i j : cycle_input) (di dj : string) :
  reply i = body di ->
  reply j = body dj ->
  strftime "%M" (now_test i) <> oldMin w ->
  let w1 := world_of (cycle i w) in
  let w2 := world_of (cycle j w1) in
  lcdTime w1 = strftime "%a %b %d %H:%M" (now_text i) /\
  oldMin w1 = strftime "%M" (now_reset i) /\
  (strftime "%M" (now_test j) = strftime "%M" (now_reset i) ->
   lcdTime w2 = strftime "%a %b %d %H:%M" (now_text i) /\
   oldMin w2 = strftime "%M" (now_reset i)) /\
  (strftime "%M" (now_test j) <> strftime "%M" (now_reset i) ->
   lcdTime w2 = strftime "%a %b %d %H:%M" (now_text j) /\
   oldMin w2 = strftime "%M" (now_reset j)).
Proof.
  intros Ei Ej Hmin w1 w2. subst w1 w2.
  rewrite !cycle_world_of.
  assert (Htick : ticks i w = true).
  { unfold ticks. apply String.eqb_neq in Hmin. now rewrite Hmin. }
  assert (H1 : lcdTime (cycle_world i w)
               = strftime "%a %b %d %H:%M" (now_text i) /\
               oldMin (cycle_world i w) = strftime "%M" (now_reset i)).
  { unfold cycle_world, lcdTime_after, oldMin_after.
    rewrite Ei, Htick. split; reflexivity. }
  destruct H1 as [Ht Hm].
  split; [exact Ht|]. split; [exact Hm|].
  unfold cycle_world at 1 3 5 7, lcdTime_after, oldMin_after, ticks.
  rewrite Ej. simpl. rewrite Hm, Ht.
  split; intros Hj.
  - rewrite Hj, String.eqb_refl. split; reflexivity.
  - apply String.eqb_neq in Hj. rewrite Hj. split; reflexivity.
Qed.

Lemma refresh_test_uses_recorded_minute_witness :
  let w1 := world_of (cycle split_pass (booted LOW)) in
  let w2 := world_of (cycle late_pass w1) in
  lcdTime w2 = "Mon Jan 01 10:04" /\ oldMin w2 = "05".
Proof.
  intros w1 w2.
  destruct (refresh_test_uses_recorded_minute (booted LOW) split_pass
              late_pass "0" "0" eq_refl eq_refl
              (strftime_M_not_empty monday_1004))
    as (_ & _ & Hsame & _).
  exact (Hsame eq_refl).
Defined.

(** ** The GPIO pin *)

Lemma gpio_pins_app (l r : list event) :
  gpio_pins (l ++ r) = (gpio_pins l ++ gpio_pins r)%list.
Proof.
  induction l as [|e l IH]; simpl; auto.
  destruct e; simpl; auto. now rewrite IH.
Qed.

Lemma gpio_pins_cycle (i : cycle_input) (w : world) :
  Forall (fun pin => pin = brewPin) (gpio_pins (cycle_events i w)).
Proof.
  unfold cycle_events, poll_events, transition_events, clock_events.
  destruct (reply i); simpl; auto.
  destruct (flips i); destruct (ticks i w); simpl; auto.
Qed.

(** X12. One pin only.  The log of any run begins with the calls of
    start-up, in which the relay pin is set up as an output before its first
    GPIO.output, and no GPIO.output anywhere in the run names a pin other
    than [brewPin]. *)
Theorem only_the_relay_pin (prior : level) (inputs : list cycle_input) :
  let w := world_of (program inputs (power_on prior)) in
  (exists rest, log w = (startup_calls ++ rest)%list) /\
  Forall (fun pin => pin = brewPin) (gpio_pins (log w)) /\
  (exists before after,
     startup_calls =
     (before ++ ev_gpio_setup_OUT brewPin :: after)%list /\
     gpio_pins before = []).
Proof.
  intros w. subst w. rewrite program_from_boot.
  split; [|split].
  - destruct (main_loop_log inputs (booted prior)) as [evs Hevs].
    exists evs. rewrite Hevs. now destruct prior.
  - apply (main_loop_preserves
             (fun w => Forall (fun pin => pin = brewPin) (gpio_pins (log w)))).
    + intros i w Hw. rewrite cycle_log, gpio_pins_app.
      apply Forall_app. split; [exact Hw | apply gpio_pins_cycle].
    + destruct prior; simpl; auto.
  - exists [ev_lcd_begin 16 2; ev_gpio_setmode_BCM],
           [ev_gpio_setwarnings false; ev_gpio_output brewPin LOW;
            ev_lcd_setCursor 0 1; ev_lcd_message "Not brewing";
            ev_lcd_message splash; ev_sleep 1].
    split; reflexivity.
Qed.

(** ** A failure while brewing *)

(** X13. A request or response that raises while the controller is brewing
    ends the loop with the relay still HIGH: the one request went to
    /should_stop, nothing was driven or written, and no later pass runs that
    could switch the relay off. *)
Theorem failure_while_brewing_leaves_relay_on
  (w : world) (i : cycle_input) (e : exn) (rest : list cycle_input) :
  brewing w = true ->
  relay w = HIGH ->
  reply i = request_raises e \/ reply i = response_raises e ->
  let w' := world_of (main_loop (i :: rest) w) in
  main_loop (i :: rest) w = Raised e w' /\
  brewing w' = true /\ relay w' = HIGH /\
  events_of (main_loop (i :: rest)) w =
  [ev_http_connection host; ev_http_request "GET" "/should_stop"].
Proof.
  intros Hbrew Hhigh Hfail w'. subst w'.
  unfold events_of.
  rewrite main_loop_cons, (cycle_raises i w e Hfail). simpl.
  rewrite cycle_log, skipn_app_exact.
  unfold cycle_world, cycle_events, poll_events.
  destruct Hfail as [-> | ->]; simpl; rewrite Hbrew; repeat split; auto.
Qed.

Lemma failure_while_brewing_leaves_relay_on_witness :
  relay (world_of (main_loop [timeout_pass; brew_pass]
                             (world_of (cycle brew_pass (booted LOW)))))
  = HIGH.
Proof.
  apply (failure_while_brewing_leaves_relay_on
           (world_of (cycle brew_pass (booted LOW))) timeout_pass
           socket_timeout [brew_pass] eq_refl eq_refl (or_intror eq_refl)).
Defined.
